(** * hl7: a shallow embedding of the message reader, index and binder

    The development follows [message.go]: the delimiter resolver
    ([NewMessage]), the segment tokenizer ([ReadSegment]), the segment index
    ([Parse], [GetSegment]) and the value binder ([Find], [Get],
    [Unmarshal]).  Go byte slices are lists of bytes, Go strings are
    [string]s, the [map[string][]Segment] index is a [gmap], a Go [error] is
    an [option error] ([None] is [nil]) and a call that can stop with a
    run-time panic returns an [outcome]. *)

From Stdlib Require Import ZArith Lia Ascii String Strings.Byte.
From Stdlib Require Import DecimalString DecimalPos DecimalN.
From stdpp Require Import gmap strings list fin_maps.
From Equations Require Import Equations.

Open Scope string_scope.
Open Scope nat_scope.
Open Scope list_scope.
Open Scope stdpp_scope.

(** ** Go values *)

(** The error values of the package: [io.EOF], and the per-level range
    failures of the field navigator. *)
Inductive error : Set :=
| EOF
| ErrFieldRange
| ErrRepetitionRange
| ErrComponentRange
| ErrSubComponentRange.

(** A call either returns its results or stops with a run-time panic. *)
Inductive outcome (A : Type) : Type :=
| Returns (a : A)
| Panics.
Arguments Returns {A} a.
Arguments Panics {A}.

#[global] Instance outcome_ret : MRet outcome := @Returns.

#[global] Instance outcome_bind : MBind outcome := fun A B k o =>
  match o with
  | Returns a => k a
  | Panics => Panics
  end.

(** [string(buf)] and [[]byte(s)]. *)
Definition bytes_string (buf : list byte) : string := string_of_list_byte buf.
Definition string_bytes (s : string) : list byte := list_byte_of_string s.

(** Constants describing possible message boundaries. *)
Definition CR : byte := x0d.
Definition LF : byte := x0a.
Definition FF : byte := x0c.
Definition NB : byte := x00.

(** [unicode.IsSpace(rune(b))] for a byte [b]: the Latin-1 white space. *)
Definition IsSpace (b : byte) : bool :=
  match b with
  | x09 | x0a | x0b | x0c | x0d | x20 | x85 | xa0 => true
  | _ => false
  end.

(** ** Segments and messages *)

Record Segment : Set := newSegment {
  segFieldSep : byte;
  segCompSep : byte;
  segSubCompSep : byte;
  segRepeat : byte;
  segEscape : byte;
  Value : list byte
}.

(** [Segment{}] *)
Definition zeroSegment : Segment := newSegment x00 x00 x00 x00 x00 [].

Record Message : Type := mkMessage {
  segments : gmap string (list Segment);
  reader : list byte;
  fieldSep : byte;
  compSep : byte;
  subCompSep : byte;
  repeat : byte;
  escape : byte
}.

Definition set_reader (m : Message) (rd : list byte) : Message :=
  mkMessage (segments m) rd (fieldSep m) (compSep m) (subCompSep m)
            (repeat m) (escape m).

Definition set_segments (m : Message) (sg : gmap string (list Segment)) : Message :=
  mkMessage sg (reader m) (fieldSep m) (compSep m) (subCompSep m)
            (repeat m) (escape m).

(** [data[i]], for an index the caller has checked to be in range. *)
Definition at_index (data : list byte) (i : nat) : byte := nth i data x00.

(** NewMessage takes a byte slice and returns a Message that is ready to
    use. *)
Definition NewMessage (data : list byte) : option Message * option error :=
  if length data <? 8 then (None, Some EOF)
  else
    (Some {| segments := ∅;
             reader := data;
             fieldSep := at_index data 3;
             compSep := at_index data 4;
             repeat := at_index data 5;
             escape := at_index data 6;
             subCompSep := at_index data 7 |},
     None).

(** ** The segment tokenizer *)

(** The [for] loop of [ReadSegment]: [rd] is what the reader still holds,
    [buf] the bytes saved so far.  The result is the final [buf] and what is
    left in the reader. *)
Fixpoint readLoop (rd buf : list byte) : list byte * list byte :=
  match rd with
  | [] => (buf, [])
  | b :: rd' =>
      if (length buf =? 0) && IsSpace b then readLoop rd' buf
      else if Byte.eqb b CR || Byte.eqb b LF then (buf, rd')
      else readLoop rd' (buf ++ [b])
  end.

(** ReadSegment is used to read the next segment from the message. *)
Definition ReadSegment (m : Message) : (Segment * option error) * Message :=
  let '(buf, rd) := readLoop (reader m) [] in
  let m' := set_reader m rd in
  if length buf =? 0 then ((zeroSegment, Some EOF), m')
  else ((newSegment (fieldSep m) (compSep m) (subCompSep m) (repeat m)
                    (escape m) buf, None), m').

(** The reader only moves forward, and a call that saved a byte consumed
    one. *)
Lemma readLoop_consumes (rd buf : list byte) :
  length (readLoop rd buf).2 ≤ length rd ∧
  (length buf < length (readLoop rd buf).1 →
   length (readLoop rd buf).2 < length rd).
Proof.
  revert buf; induction rd as [|b rd IH]; intros buf; simpl.
  - split; lia.
  - destruct ((length buf =? 0) && IsSpace b).
    + destruct (IH buf); split; lia.
    + destruct (Byte.eqb b CR || Byte.eqb b LF); simpl.
      * split; lia.
      * destruct (IH (buf ++ [b])); split; lia.
Qed.

Lemma ReadSegment_progress (m m1 : Message) (segment : Segment) :
  ReadSegment m = ((segment, None), m1) →
  length (reader m1) < length (reader m).
Proof.
  unfold ReadSegment.
  pose proof (readLoop_consumes (reader m) []) as [_ Hlt].
  destruct (readLoop (reader m) []) as [buf rd]; simpl in *.
  destruct buf as [|b buf]; simpl; [discriminate|].
  intros [= <- <-]; simpl. apply Hlt; simpl; lia.
Qed.

(** ** The field navigator (segment.go is not part of the sources) *)

(** [bytes.Split(l, []byte{sep})]. *)
Fixpoint splitOn (sep : byte) (l : list byte) : list (list byte) :=
  match l with
  | [] => [[]]
  | b :: l' =>
      if Byte.eqb b sep then [] :: splitOn sep l'
      else match splitOn sep l' with
           | [] => [[b]]
           | h :: t => (b :: h) :: t
           end
  end.

(** Modelled from the spec: [Segment.Type] is missing from the sources.  The
    type of a segment is the first field's literal text: the bytes that
    precede the first occurrence of the field separator. *)
Definition Type_ (s : Segment) : string :=
  bytes_string (hd [] (splitOn (segFieldSep s) (Value s))).

Record SubComponent : Set := mkSubComponent { subValue : list byte }.

Definition SubComponent_String (sc : SubComponent) : string :=
  bytes_string (subValue sc).

(** [x[i]] for a Go [int] index, [None] when out of range. *)
Definition index {A} (l : list A) (i : Z) : option A :=
  if (i <? 0)%Z then None else l !! Z.to_nat i.

(** Modelled from the spec: the header test of the navigator is missing from
    the sources.  The header segment is the one under the fixed 3-letter
    header tag. *)
Definition isHeader (s : Segment) : bool :=
  if decide (Type_ s = "MSH") then true else false.

(** Modelled from the spec: the field split of the navigator is missing from
    the sources.  The segment is split on the field separator and element 0
    is the tag; in the header the byte after the tag is the separator, the
    next field is the four encoding characters, rebuilt from the delimiter
    set and not found by a further split, and the fields after it follow. *)
Definition fields (s : Segment) : list (list byte) :=
  if isHeader s then
    let rest := drop 8 (Value s) in
    hd [] (splitOn (segFieldSep s) (Value s))
    :: [segCompSep s; segRepeat s; segEscape s; segSubCompSep s]
    :: match rest with
       | [] => []
       | b :: rest' =>
           if Byte.eqb b (segFieldSep s) then splitOn (segFieldSep s) rest'
           else splitOn (segFieldSep s) rest
       end
  else splitOn (segFieldSep s) (Value s).

(** Modelled from the spec: the escape decoder is missing from the sources.
    A sequence bounded by the escape character that stands for a literal
    field (F), component (S), subcomponent (T), repetition (R) or escape (E)
    character is replaced by that character; other bytes are kept. *)
Definition escapeCode (s : Segment) (c : byte) : option byte :=
  match c with
  | "F"%byte => Some (segFieldSep s)
  | "S"%byte => Some (segCompSep s)
  | "T"%byte => Some (segSubCompSep s)
  | "R"%byte => Some (segRepeat s)
  | "E"%byte => Some (segEscape s)
  | _ => None
  end.

Fixpoint unescape (s : Segment) (txt : list byte) : list byte :=
  match txt with
  | [] => []
  | b :: tl =>
      match tl with
      | c :: e :: rest =>
          if Byte.eqb b (segEscape s) && Byte.eqb e (segEscape s) then
            match escapeCode s c with
            | Some lit => lit :: unescape s rest
            | None => b :: unescape s tl
            end
          else b :: unescape s tl
      | _ => b :: unescape s tl
      end
  end.

(** Modelled from the spec: [Segment.GetSubComponent] is missing from the
    sources.  Field 0 is the tag text whatever the other indices are;
    otherwise the field, then the repetition, the component and the
    subcomponent are selected by splitting on their separators, a text with
    no separator being its own element 0, and an index out of range fails at
    its own level with the zero value; the selected text is un-escaped. *)
Definition GetSubComponent (s : Segment) (field rep comp subcomp : Z)
  : SubComponent * option error :=
  if (field =? 0)%Z then (mkSubComponent (hd [] (fields s)), None)
  else
    match index (fields s) field with
    | None => (mkSubComponent [], Some ErrFieldRange)
    | Some f =>
        match index (splitOn (segRepeat s) f) rep with
        | None => (mkSubComponent [], Some ErrRepetitionRange)
        | Some r =>
            match index (splitOn (segCompSep s) r) comp with
            | None => (mkSubComponent [], Some ErrComponentRange)
            | Some c =>
                match index (splitOn (segSubCompSep s) c) subcomp with
                | None => (mkSubComponent [], Some ErrSubComponentRange)
                | Some sc => (mkSubComponent (unescape s sc), None)
                end
            end
        end
    end.

(** ** Locations (location.go is not part of the sources) *)

Module Loc.
Record Location : Set := mkLocation {
  Segment : string;
  FieldSeq : Z;
  Comp : Z;
  SubComp : Z
}.
End Loc.
Abbreviation Location := Loc.Location.

(** [strings.Split(s, sep)] for a one-character separator. *)
Fixpoint Split (s : string) (sep : ascii) : list string :=
  match s with
  | EmptyString => [EmptyString]
  | String c s' =>
      if Ascii.eqb c sep then EmptyString :: Split s' sep
      else match Split s' sep with
           | [] => [String c EmptyString]
           | h :: t => String c h :: t
           end
  end.

(** A token read as a non-negative decimal integer. *)
Definition Atoi (tok : string) : option Z :=
  Z.of_uint <$> NilZero.uint_of_string tok.

(** Modelled from the spec: [NewLocation] is missing from the sources (only
    its test is there).  The address has the form
    TAG.field[.component[.subcomponent]]: the tag is the leading token, the
    field index the required second token, component and subcomponent are
    optional and default to 0; parsing fails ([None]) when the tag or the
    field token is missing or an index token is not a non-negative
    integer. *)
Definition NewLocation (l : string) : option Location :=
  match Split l "."%char with
  | [tag; f] =>
      if decide (tag = "") then None
      else fld ← Atoi f; Some (Loc.mkLocation tag fld 0 0)
  | [tag; f; c] =>
      if decide (tag = "") then None
      else fld ← Atoi f; cmp ← Atoi c; Some (Loc.mkLocation tag fld cmp 0)
  | [tag; f; c; sc] =>
      if decide (tag = "") then None
      else fld ← Atoi f; cmp ← Atoi c; sub ← Atoi sc;
           Some (Loc.mkLocation tag fld cmp sub)
  | _ => None
  end.

(** ** [strings.TrimSpace] *)

(** The ASCII white space of the fast path. *)
Definition asciiSpace (b : byte) : bool :=
  match b with
  | x09 | x0a | x0b | x0c | x0d | x20 => true
  | _ => false
  end.

(** The white-space runes that UTF-8 writes on two bytes (U+0085, U+00A0)
    and on three (U+1680, U+2000 to U+200A, U+2028, U+2029, U+202F, U+205F,
    U+3000). *)
Definition space2 (b0 b1 : byte) : bool :=
  Byte.eqb b0 xc2 && (Byte.eqb b1 x85 || Byte.eqb b1 xa0).

Definition space3 (b0 b1 b2 : byte) : bool :=
  (Byte.eqb b0 xe1 && Byte.eqb b1 x9a && Byte.eqb b2 x80)
  || (Byte.eqb b0 xe2 && Byte.eqb b1 x80
      && (((128 <=? Byte.to_N b2)%N && (Byte.to_N b2 <=? 138)%N)
          || Byte.eqb b2 xa8 || Byte.eqb b2 xa9 || Byte.eqb b2 xaf))
  || (Byte.eqb b0 xe2 && Byte.eqb b1 x81 && Byte.eqb b2 x9f)
  || (Byte.eqb b0 xe3 && Byte.eqb b1 x80 && Byte.eqb b2 x80).

Fixpoint trimLeft (l : list byte) : list byte :=
  match l with
  | [] => []
  | b0 :: t0 =>
      if asciiSpace b0 then trimLeft t0
      else match t0 with
           | [] => l
           | b1 :: t1 =>
               if space2 b0 b1 then trimLeft t1
               else match t1 with
                    | [] => l
                    | b2 :: t2 => if space3 b0 b1 b2 then trimLeft t2 else l
                    end
           end
  end.

(** The same scan from the end, on the reversed text. *)
Fixpoint trimLeftRev (l : list byte) : list byte :=
  match l with
  | [] => []
  | b0 :: t0 =>
      if asciiSpace b0 then trimLeftRev t0
      else match t0 with
           | [] => l
           | b1 :: t1 =>
               if space2 b1 b0 then trimLeftRev t1
               else match t1 with
                    | [] => l
                    | b2 :: t2 => if space3 b2 b1 b0 then trimLeftRev t2 else l
                    end
           end
  end.

Definition trimRight (l : list byte) : list byte := rev (trimLeftRev (rev l)).

Definition TrimSpace (s : string) : string :=
  bytes_string (trimRight (trimLeft (string_bytes s))).

(** ** The segment index *)

Definition inspect {A} (a : A) : {b : A | a = b} := exist _ a eq_refl.

(** The [for] loop of [Parse]. *)
Equations? parseLoop (m : Message) : Message * option error
  by wf (length (reader m)) lt :=
  parseLoop m with inspect (ReadSegment m) => {
    | exist _ ((segment, Some EOF), m1) _ := (m1, None);
    | exist _ ((segment, Some err), m1) _ := (m1, Some err);
    | exist _ ((segment, None), m1) Heq :=
        let stype := Type_ segment in
        parseLoop (set_segments m1
                     (<[stype := (segments m1 !!! stype) ++ [segment]]>
                        (segments m1))) }.
Proof. simpl. eapply ReadSegment_progress, Heq. Qed.

(** Parse is used to parse the segments within the message so that they can
    be queried and iterated. *)
Definition Parse (m : Message) : Message * option error :=
  parseLoop (set_segments m ∅).

(** [m.segments[id]], with no error. *)
Definition GetSegment (m : Message) (id : string) : list Segment * option error :=
  (segments m !!! id, None).

(** ** The value binder *)

(** Get returns the first value specified by the Location.  Indexing the
    slice at 0 panics when it is empty. *)
Definition Get (m : Message) (l : Location) : outcome (string * option error) :=
  let '(seg, err) := GetSegment m (Loc.Segment l) in
  match err with
  | Some e => Returns ("", Some e)
  | None =>
      match seg with
      | [] => Panics
      | seg0 :: _ =>
          let '(sc, _) := GetSubComponent seg0 (Loc.FieldSeq l) 0
                            (Loc.Comp l) (Loc.SubComp l) in
          Returns (SubComponent_String sc, err)
      end
  end.

(** Find gets a value from a message using location syntax.  [NewLocation]
    has one result, a pointer: a parse that fails can only hand [Get] a nil
    pointer, which it dereferences. *)
Definition Find (m : Message) (loc : string) : outcome (string * option error) :=
  match NewLocation loc with
  | Some l => Get m l
  | None => Panics
  end.

(** A field of the target struct, as [reflect] shows it: the value of its
    [hl7] tag (empty when it has none), whether it can be set, and its
    value, a string or a value of another kind. *)
Inductive FieldValue : Set :=
| StringValue (s : string)
| OtherValue.

Record StructField : Set := mkField {
  Name : string;
  hl7 : string;
  CanSet : bool;
  fieldValue : FieldValue
}.

(** [reflect.Value.SetString] panics on a value whose kind is not String. *)
Definition SetString (fld : StructField) (x : string) : outcome StructField :=
  match fieldValue fld with
  | StringValue _ =>
      Returns (mkField (Name fld) (hl7 fld) (CanSet fld) (StringValue x))
  | OtherValue => Panics
  end.

(** One turn of the loop of [Unmarshal]. *)
Definition unmarshalField (m : Message) (fld : StructField) : outcome StructField :=
  let r := hl7 fld in
  if decide (r ≠ "") then
    v ← Find m r;
    let val := v.1 in
    if decide (val ≠ "") then
      if CanSet fld then SetString fld (TrimSpace val) else Returns fld
    else Returns fld
  else Returns fld.

Fixpoint unmarshalLoop (m : Message) (st : list StructField)
  : outcome (list StructField) :=
  match st with
  | [] => Returns []
  | fld :: rest =>
      fld' ← unmarshalField m fld;
      rest' ← unmarshalLoop m rest;
      Returns (fld' :: rest')
  end.

(** Unmarshal fills a structure from an HL7 message: the result is the
    struct the pointer leads to, as the call leaves it, and the error. *)
Definition Unmarshal (m : Message) (it : list StructField)
  : outcome (list StructField * option error) :=
  st ← unmarshalLoop m it;
  Returns (st, None).

(** ** Sequences of calls *)

(** The message after [k] calls of [ReadSegment], and what call number [k]
    (counted from 0) returns. *)
Fixpoint run (k : nat) (m : Message) : Message :=
  match k with
  | 0 => m
  | S k' => run k' (ReadSegment m).2
  end.

Definition call (k : nat) (m : Message) : Segment * option error :=
  (ReadSegment (run k m)).1.

(** The segments that successive calls return before the first call that
    returns an error: the segments of the message, in message order. *)
Equations? readAll (m : Message) : list Segment
  by wf (length (reader m)) lt :=
  readAll m with inspect (ReadSegment m) => {
    | exist _ ((segment, None), m1) Heq := segment :: readAll m1;
    | exist _ ((segment, Some err), m1) _ := [] }.
Proof. eapply ReadSegment_progress, Heq. Qed.

(** ** The messages of the tests *)

Definition cr : string := String "013" EmptyString.
Definition nl : string := String "010" EmptyString.
Definition tab : string := String "009" EmptyString.

Definition minimal : list byte := string_bytes "MSH|^~\&".

Definition twoSegments : list byte :=
  string_bytes ("MSH|^~\&" +:+ cr +:+ "MSH|^~\&").

Definition twoSegmentsCRLF : list byte :=
  string_bytes ("MSH|^~\&" +:+ cr +:+ nl +:+ "MSH|^~\&").

Definition hl7text : list byte :=
  string_bytes
    ("MSH|^~\&|CERNER||PriorityHealth||||ORU^R01|Q479004375T431430612|P|2.3|"
     +:+ nl +:+ tab +:+
     "PID|||001677980||SMITH^CURTIS||19680219|M||||||||||929645156318|123456789|"
     +:+ nl +:+ tab +:+
     "PD1||||1234567890^LAST^FIRST^M^^^^^NPI|"
     +:+ nl +:+ tab +:+
     "OBR|1|341856649^HNAM_ORDERID|000002006326002362|648088^Basic Metabolic Panel|||20061122151600|||||||||1620^Hooker^Robert^L||||||20061122154733|||F|||||||||||20061122140000|"
     +:+ nl +:+ tab +:+
     "OBX|1|NM|GLU^Glucose Lvl|59|mg/dL|65-99^65^99|L||||F|||20061122154733|"
     +:+ tab +:+ nl +:+ tab).

(** The header and the patient line with white space around the values. *)
Definition paddedText : list byte :=
  string_bytes
    ("MSH|^~\&| CERNER " +:+ tab +:+ "|PriorityHealth" +:+ cr +:+ nl +:+
     "PID|||001677980||  SMITH^" +:+ tab +:+ "CURTIS " +:+ nl).

(** The message [NewMessage] builds from a buffer of at least 8 bytes. *)
Definition messageOf (data : list byte) : Message :=
  {| segments := ∅;
     reader := data;
     fieldSep := at_index data 3;
     compSep := at_index data 4;
     repeat := at_index data 5;
     escape := at_index data 6;
     subCompSep := at_index data 7 |}.

(** [PIDMessage{}] of [TestUnmarshal]. *)
Definition PIDMessage (id firstName lastName ehr : string) : list StructField :=
  [ mkField "Id" "PID.0.0" true (StringValue id);
    mkField "FirstName" "PID.5.1" true (StringValue firstName);
    mkField "LastName" "PID.5.0" true (StringValue lastName);
    mkField "Ehr" "MSH.2.0" true (StringValue ehr) ].

(** * Construction *)

Section Construction.

Lemma NewMessage_long (data : list byte) :
  8 ≤ length data → NewMessage data = (Some (messageOf data), None).
Proof.
  intros H. unfold NewMessage, messageOf.
  destruct (Nat.ltb_spec (length data) 8); [lia | reflexivity].
Qed.

Lemma at_index_lookup (data : list byte) (i : nat) :
  i < length data → data !! i = Some (at_index data i).
Proof.
  intros H. unfold at_index.
  destruct (lookup_lt_is_Some_2 data i H) as [b Hb].
  rewrite Hb. f_equal. symmetry. by apply nth_lookup_Some with (d := x00).
Qed.

(** C2: every buffer shorter than 8 bytes, the nil and the empty buffer
    among them, makes [NewMessage] fail: it returns an error and no
    message. *)
Theorem NewMessage_short (data : list byte) :
  length data < 8 →
  (NewMessage data).1 = None ∧ (NewMessage data).2 ≠ None.
Proof.
  intros H. unfold NewMessage.
  destruct (Nat.ltb_spec (length data) 8); [done | lia].
Qed.

Lemma NewMessage_short_witness :
  length (string_bytes "MSH|^~\") < 8 ∧
  (NewMessage (string_bytes "MSH|^~\")).1 = None ∧
  (NewMessage (string_bytes "MSH|^~\")).2 ≠ None.
Proof.
  split; [vm_compute; lia | apply NewMessage_short; vm_compute; lia].
Defined.

(** C3: the minimal buffer MSH|^~\& is accepted with the delimiters
    | ^ ~ \ & for field, component, repetition, escape and subcomponent;
    and every buffer of at least 8 bytes is accepted, its bytes 3, 4, 5, 6
    and 7 becoming those five delimiters in that order. *)
Theorem NewMessage_delimiters :
  (∃ m, NewMessage minimal = (Some m, None) ∧
        fieldSep m = "|"%byte ∧ compSep m = "^"%byte ∧
        repeat m = "~"%byte ∧ escape m = "\"%byte ∧
        subCompSep m = "&"%byte) ∧
  (∀ data : list byte,
      8 ≤ length data →
      ∃ m, NewMessage data = (Some m, None) ∧
           data !! 3 = Some (fieldSep m) ∧
           data !! 4 = Some (compSep m) ∧
           data !! 5 = Some (repeat m) ∧
           data !! 6 = Some (escape m) ∧
           data !! 7 = Some (subCompSep m)).
Proof.
  split.
  - eexists. split; [reflexivity | by vm_compute].
  - intros data H. exists (messageOf data).
    split; [by apply NewMessage_long |].
    repeat split; apply at_index_lookup; lia.
Qed.

End Construction.

(** * The tokenizer *)

Section Tokenizer.

Implicit Types (m : Message) (rd buf ws line : list byte) (b : byte).

(** The segment [ReadSegment] builds from the saved bytes. *)
Definition segmentOf m buf : Segment :=
  newSegment (fieldSep m) (compSep m) (subCompSep m) (repeat m) (escape m) buf.

(** A line: it starts with a byte that is not white space and holds no
    line terminator. *)
Definition lineOK line : Prop :=
  (∃ b line', line = b :: line' ∧ IsSpace b = false) ∧
  Forall (λ b, b ≠ CR ∧ b ≠ LF) line.

Definition blank ws : Prop := Forall (λ b, IsSpace b = true) ws.

Definition terminator b : Prop := b = CR ∨ b = LF.

Lemma terminator_eqb b :
  Byte.eqb b CR || Byte.eqb b LF = true ↔ terminator b.
Proof.
  unfold terminator. rewrite orb_true_iff. split.
  - intros [H|H]; apply Byte.byte_dec_bl in H; auto.
  - intros [->| ->]; auto.
Qed.

Lemma terminator_space b : terminator b → IsSpace b = true.
Proof. by intros [->| ->]. Qed.

Lemma set_reader_id m : set_reader m (reader m) = m.
Proof. by destruct m. Qed.

Lemma set_reader_twice m rd rd' :
  set_reader (set_reader m rd) rd' = set_reader m rd'.
Proof. reflexivity. Qed.

(** *** The loop *)

Lemma readLoop_blank ws rd :
  blank ws → readLoop (ws ++ rd) [] = readLoop rd [].
Proof.
  induction 1 as [|b ws Hb _ IH]; simpl; [done|].
  by rewrite Hb.
Qed.

Lemma readLoop_saves line rd buf :
  Forall (λ b, b ≠ CR ∧ b ≠ LF) line →
  (buf ≠ [] ∨ line = [] ∨ ∃ b line', line = b :: line' ∧ IsSpace b = false) →
  readLoop (line ++ rd) buf = readLoop rd (buf ++ line).
Proof.
  intros Hline; revert buf.
  induction Hline as [|b line [Hcr Hlf] _ IH]; intros buf Hstart; simpl.
  - by rewrite app_nil_r.
  - assert ((length buf =? 0) && IsSpace b = false) as ->.
    { destruct Hstart as [Hbuf|[?|(b' & l' & [= <- <-] & Hsp)]];
        [|done|by rewrite Hsp, andb_false_r].
      destruct buf; [done | reflexivity]. }
    assert (Byte.eqb b CR || Byte.eqb b LF = false) as ->.
    { apply not_true_is_false. rewrite terminator_eqb. by intros [?|?]. }
    rewrite IH, <- app_assoc; [done|].
    left. by destruct buf.
Qed.

Lemma readLoop_stops b rd buf :
  terminator b → buf ≠ [] → readLoop (b :: rd) buf = (buf, rd).
Proof.
  intros Hb Hbuf; simpl.
  destruct buf as [|b' buf]; [done|]; simpl.
  apply terminator_eqb in Hb. by rewrite Hb.
Qed.

(** What the loop has saved is never led by white space and never holds a
    terminator. *)
Lemma readLoop_saved rd buf :
  Forall (λ b, b ≠ CR ∧ b ≠ LF) buf →
  (buf = [] ∨ ∃ b buf', buf = b :: buf' ∧ IsSpace b = false) →
  Forall (λ b, b ≠ CR ∧ b ≠ LF) (readLoop rd buf).1 ∧
  ((readLoop rd buf).1 = [] ∨
   ∃ b buf', (readLoop rd buf).1 = b :: buf' ∧ IsSpace b = false).
Proof.
  revert buf; induction rd as [|b rd IH]; intros buf Hbuf Hhd; simpl; [done|].
  destruct ((length buf =? 0) && IsSpace b) eqn:Hskip; [by apply IH|].
  destruct (Byte.eqb b CR || Byte.eqb b LF) eqn:Hterm; [done|].
  apply IH.
  - apply Forall_app; split; [done|]. constructor; [|done].
    apply not_true_iff_false in Hterm. rewrite terminator_eqb in Hterm.
    unfold terminator in Hterm. tauto.
  - right. destruct Hhd as [->|(b' & buf' & -> & Hsp)]; simpl in *; eauto.
Qed.

(** The loop leaves with nothing saved only when the reader is empty. *)
Lemma readLoop_nothing rd :
  (readLoop rd []).1 = [] → (readLoop rd []).2 = [].
Proof.
  assert (∀ rd buf, length buf ≤ length (readLoop rd buf).1) as Hgrow.
  { clear rd. induction rd as [|b rd IH]; intros buf; simpl; [done|].
    destruct ((length buf =? 0) && IsSpace b); [done|].
    destruct (Byte.eqb b CR || Byte.eqb b LF); [done|].
    etrans; [|apply IH]. rewrite length_app; simpl; lia. }
  induction rd as [|b rd IH]; simpl; [done|].
  destruct (IsSpace b) eqn:Hsp; [done|].
  destruct (Byte.eqb b CR || Byte.eqb b LF) eqn:Hterm.
  { apply terminator_eqb, terminator_space in Hterm. congruence. }
  intros Hnil. specialize (Hgrow rd [b]). rewrite Hnil in Hgrow.
  simpl in Hgrow; lia.
Qed.

(** *** One call *)

Lemma ReadSegment_cases m :
  (∃ buf rd, buf ≠ [] ∧
      ReadSegment m = ((segmentOf m buf, None), set_reader m rd) ∧
      length rd < length (reader m) ∧
      Forall (λ b, b ≠ CR ∧ b ≠ LF) buf ∧
      ∃ b buf', buf = b :: buf' ∧ IsSpace b = false) ∨
  ReadSegment m = ((zeroSegment, Some EOF), set_reader m []).
Proof.
  unfold ReadSegment.
  pose proof (readLoop_consumes (reader m) []) as [_ Hlt].
  pose proof (readLoop_saved (reader m) [] (Forall_nil_2 _) (or_introl eq_refl))
    as [Hterm Hhd].
  pose proof (readLoop_nothing (reader m)) as Hnil.
  destruct (readLoop (reader m) []) as [buf rd]; simpl in *.
  destruct buf as [|b buf]; simpl.
  - right. by rewrite Hnil.
  - left. exists (b :: buf), rd. repeat split; try done.
    + apply Hlt; simpl; lia.
    + destruct Hhd as [?|?]; [done|eauto].
Qed.

Lemma ReadSegment_exhausted m :
  reader m = [] → ReadSegment m = ((zeroSegment, Some EOF), m).
Proof.
  intros H. unfold ReadSegment. rewrite H; simpl.
  rewrite <- H. by rewrite set_reader_id.
Qed.

Lemma ReadSegment_error m segment err m1 :
  ReadSegment m = ((segment, Some err), m1) →
  segment = zeroSegment ∧ err = EOF ∧ reader m1 = [].
Proof.
  destruct (ReadSegment_cases m) as [(buf & rd & _ & -> & _)| ->];
    [done | by intros [= <- <- <-]].
Qed.

Lemma ReadSegment_line m ws line b rd :
  blank ws → lineOK line → terminator b →
  reader m = ws ++ line ++ b :: rd →
  ReadSegment m = ((segmentOf m line, None), set_reader m rd).
Proof.
  intros Hws [Hhd Hline] Hb Hrd. unfold ReadSegment. rewrite Hrd.
  rewrite readLoop_blank, readLoop_saves by eauto.
  destruct Hhd as (b' & line' & -> & _).
  by rewrite readLoop_stops.
Qed.

Lemma ReadSegment_last_line m ws line :
  blank ws → lineOK line →
  reader m = ws ++ line →
  ReadSegment m = ((segmentOf m line, None), set_reader m []).
Proof.
  intros Hws [Hhd Hline] Hrd. unfold ReadSegment. rewrite Hrd.
  rewrite <- (app_nil_r line) at 1.
  rewrite readLoop_blank, readLoop_saves by eauto.
  by destruct Hhd as (b' & line' & -> & _).
Qed.

Lemma ReadSegment_blank m ws :
  blank ws → reader m = ws →
  ReadSegment m = ((zeroSegment, Some EOF), set_reader m []).
Proof.
  intros Hws Hrd. unfold ReadSegment. rewrite Hrd.
  rewrite <- (app_nil_r ws). by rewrite readLoop_blank.
Qed.

End Tokenizer.

(** * Sequences of calls *)

Section Calls.

Implicit Types (m : Message) (k j : nat).

Lemma readAll_step m :
  readAll m =
  match ReadSegment m with
  | ((segment, None), m1) => segment :: readAll m1
  | _ => []
  end.
Proof.
  funelim (readAll m);
    match goal with H : ReadSegment _ = _ |- _ => by rewrite H end.
Qed.

Lemma run_exhausted m k : reader m = [] → run k m = m.
Proof.
  intros H. induction k as [|k IH]; simpl; [done|].
  by rewrite ReadSegment_exhausted.
Qed.

Lemma call_exhausted m k : reader m = [] → call k m = (zeroSegment, Some EOF).
Proof.
  intros H. unfold call. rewrite run_exhausted by done.
  by rewrite ReadSegment_exhausted.
Qed.

Lemma readAll_exhausted m : reader m = [] → readAll m = [].
Proof. intros H. by rewrite readAll_step, ReadSegment_exhausted. Qed.

(** The first calls return the segments of the message, in order, and none
    of them is empty. *)
Lemma call_readAll j m segment :
  readAll m !! j = Some segment →
  call j m = (segment, None) ∧ Value segment ≠ [].
Proof.
  revert m. induction j as [|j IH]; intros m; rewrite readAll_step;
    destruct (ReadSegment_cases m) as [(buf & rd & Hbuf & Hcall & _)|Hcall];
    unfold call; simpl; rewrite Hcall; simpl; try done.
  - by intros [= <-].
  - apply IH.
Qed.

(** Every later call returns end of stream. *)
Lemma call_past_end k m :
  length (readAll m) ≤ k → call k m = (zeroSegment, Some EOF).
Proof.
  revert m. induction k as [|k IH]; intros m; rewrite readAll_step;
    destruct (ReadSegment_cases m) as [(buf & rd & Hbuf & Hcall & _)|Hcall];
    unfold call; simpl; rewrite Hcall; simpl; try done; try lia.
  - intros H. apply IH. lia.
  - intros _. by apply call_exhausted.
Qed.

(** The segments of a message depend on its reader and delimiters only. *)
Lemma readAll_set_segments m sg : readAll (set_segments m sg) = readAll m.
Proof.
  remember (length (reader m)) as n eqn:Hn. revert m sg Hn.
  induction n as [n IH] using lt_wf_ind; intros m sg ->.
  rewrite (readAll_step m), (readAll_step (set_segments m sg)).
  unfold ReadSegment; simpl.
  pose proof (readLoop_consumes (reader m) []) as [_ Hlt].
  destruct (readLoop (reader m) []) as [buf rd]; simpl in *.
  destruct buf as [|b buf]; simpl; [done|]. f_equal.
  apply (IH (length rd)) with (m := set_reader m rd) (sg := sg); [|done].
  apply Hlt; simpl; lia.
Qed.

(** C5: past the segment count of the message, every call of
    [ReadSegment] returns end of stream, [io.EOF] and no other error, with
    the zero segment, which none of the calls before returned; the calls
    before return the segments of the message, one each. *)
Theorem ReadSegment_past_end m k :
  length (readAll m) ≤ k →
  call k m = (zeroSegment, Some EOF) ∧
  ∀ j segment,
    readAll m !! j = Some segment →
    call j m = (segment, None) ∧ segment ≠ (call k m).1.
Proof.
  intros Hk. rewrite call_past_end by done. split; [done|].
  intros j segment Hj. apply call_readAll in Hj as [-> Hne].
  split; [done|]. simpl. by intros ->.
Qed.

Lemma ReadSegment_past_end_witness :
  length (readAll (messageOf twoSegmentsCRLF)) ≤ 5 ∧
  call 5 (messageOf twoSegmentsCRLF) = (zeroSegment, Some EOF).
Proof.
  split; [vm_compute; lia|].
  apply (ReadSegment_past_end (messageOf twoSegmentsCRLF) 5).
  vm_compute; lia.
Defined.

(** C10: the error [NewMessage] returns for a buffer shorter than 8 bytes
    is [io.EOF], the value any failing [ReadSegment] returns: the two
    cannot be told apart by their value. *)
Theorem NewMessage_error_is_end_of_stream (data : list byte) :
  length data < 8 →
  (NewMessage data).2 = Some EOF ∧
  (∀ m, reader m = [] → (ReadSegment m).1.2 = (NewMessage data).2) ∧
  (∀ m segment err m1,
      ReadSegment m = ((segment, Some err), m1) →
      (NewMessage data).2 = Some err).
Proof.
  intros H. unfold NewMessage.
  destruct (Nat.ltb_spec (length data) 8); [simpl | lia].
  split; [done|]. split.
  - intros m Hm. by rewrite ReadSegment_exhausted.
  - intros m segment err m1 Hcall.
    by apply ReadSegment_error in Hcall as (_ & -> & _).
Qed.

Lemma NewMessage_error_is_end_of_stream_witness :
  length (string_bytes "MSH") < 8 ∧
  (NewMessage (string_bytes "MSH")).2 = (call 1 (messageOf minimal)).2.
Proof.
  split; [vm_compute; lia|].
  destruct (NewMessage_error_is_end_of_stream (string_bytes "MSH"))
    as (_ & _ & Hsame); [vm_compute; lia|].
  apply (Hsame (run 1 (messageOf minimal)) zeroSegment EOF
           (run 2 (messageOf minimal))).
  reflexivity.
Defined.

End Calls.

(** * Segment boundaries *)

Section Boundaries.

Implicit Types (m : Message) (ws line last : list byte).

(** Lines, each with its terminator and the white space after it. *)
Definition joined (lines : list (list byte * byte * list byte)) : list byte :=
  flat_map (λ x, x.1.1 ++ x.1.2 :: x.2) lines.

Definition boundaryOK (x : list byte * byte * list byte) : Prop :=
  lineOK x.1.1 ∧ terminator x.1.2 ∧ blank x.2.

Lemma readAll_joined lines : ∀ m ws last,
  blank ws → Forall boundaryOK lines → last = [] ∨ lineOK last →
  reader m = ws ++ joined lines ++ last →
  readAll m =
  segmentOf m <$> ((λ x, x.1.1) <$> lines) ++ (if last is [] then [] else [last]).
Proof.
  induction lines as [|[[line b] ws'] lines IH];
    intros m ws last Hws Hlines Hlast Hrd; simpl in *.
  - rewrite readAll_step. destruct Hlast as [->|Hlast].
    + rewrite app_nil_r in Hrd. by rewrite (ReadSegment_blank m ws).
    + rewrite (ReadSegment_last_line m ws last) by done.
      rewrite readAll_exhausted by done.
      destruct Hlast as [(b & l & -> & _) _]. reflexivity.
  - apply Forall_cons in Hlines as [(Hline & Hb & Hws') Hlines]; simpl in *.
    rewrite readAll_step.
    rewrite (ReadSegment_line m ws line b (ws' ++ joined lines ++ last));
      [|done..|by rewrite Hrd, <- !app_assoc].
    f_equal. by apply (IH (set_reader m _) ws' last).
Qed.

(** C4: the pair of segments joined by one CR, and the same pair joined by
    CR LF, both give exactly two segments tagged MSH and then end of
    stream.  White space at a boundary is dropped before a byte of the
    next segment is saved: lines separated by a terminator and any white
    space, blank lines included, give one segment per line and no empty
    segment, and no segment a call returns is empty or led by white
    space. *)
Theorem ReadSegment_boundaries :
  (∃ m, NewMessage twoSegments = (Some m, None) ∧
        (λ s, (bytes_string (Value s), Type_ s)) <$> readAll m
        = [("MSH|^~\&", "MSH"); ("MSH|^~\&", "MSH")] ∧
        (call 0 m).2 = None ∧ (call 1 m).2 = None ∧
        call 2 m = (zeroSegment, Some EOF)) ∧
  (∃ m, NewMessage twoSegmentsCRLF = (Some m, None) ∧
        (λ s, (bytes_string (Value s), Type_ s)) <$> readAll m
        = [("MSH|^~\&", "MSH"); ("MSH|^~\&", "MSH")] ∧
        (call 0 m).2 = None ∧ (call 1 m).2 = None ∧
        call 2 m = (zeroSegment, Some EOF)) ∧
  (∀ m ws lines last,
      blank ws → Forall boundaryOK lines → last = [] ∨ lineOK last →
      reader m = ws ++ joined lines ++ last →
      readAll m =
      segmentOf m <$> ((λ x, x.1.1) <$> lines)
                      ++ (if last is [] then [] else [last])) ∧
  (∀ m segment m1,
      ReadSegment m = ((segment, None), m1) →
      ∃ b buf, Value segment = b :: buf ∧ IsSpace b = false).
Proof.
  split; [|split; [|split]].
  - eexists. split; [reflexivity|]. by vm_compute.
  - eexists. split; [reflexivity|]. by vm_compute.
  - intros m ws lines last. apply readAll_joined.
  - intros m segment m1 Hcall.
    destruct (ReadSegment_cases m)
      as [(buf & rd & _ & Hm & _ & _ & b & buf' & -> & Hb)|Hm];
      rewrite Hm in Hcall; [|done].
    injection Hcall as <- _. by exists b, buf'.
Qed.

Lemma ReadSegment_boundaries_witness :
  readAll (set_reader (messageOf minimal) (string_bytes
    (nl +:+ "MSH|^~\&" +:+ cr +:+ nl +:+ cr +:+ "PID|1" +:+ nl +:+ "OBX|2")))
  = segmentOf (messageOf minimal)
      <$> [string_bytes "MSH|^~\&"; string_bytes "PID|1"; string_bytes "OBX|2"].
Proof.
  destruct ReadSegment_boundaries as (_ & _ & Hjoin & _).
  apply (Hjoin
           (set_reader (messageOf minimal) (string_bytes
              (nl +:+ "MSH|^~\&" +:+ cr +:+ nl +:+ cr +:+ "PID|1" +:+ nl +:+ "OBX|2")))
           [LF]
           [(string_bytes "MSH|^~\&", CR, [LF; CR]);
            (string_bytes "PID|1", LF, [])]
           (string_bytes "OBX|2")).
  - by repeat constructor.
  - repeat constructor; simpl; try (by eexists _, _); try (by left);
      try (by right); repeat constructor; done.
  - right. split; [by eexists _, _|]. repeat constructor; done.
  - reflexivity.
Defined.

End Boundaries.

(** * The segment index *)

Section Index.

Implicit Types (m : Message) (sg : gmap string (list Segment))
  (segs : list Segment) (id : string).

(** One turn of the loop of [Parse] on the index. *)
Definition addSegment sg (segment : Segment) : gmap string (list Segment) :=
  <[Type_ segment := (sg !!! Type_ segment) ++ [segment]]> sg.

Lemma parseLoop_step m :
  parseLoop m =
  match ReadSegment m with
  | ((segment, None), m1) =>
      parseLoop (set_segments m1 (addSegment (segments m1) segment))
  | ((_, Some EOF), m1) => (m1, None)
  | ((_, Some err), m1) => (m1, Some err)
  end.
Proof.
  funelim (parseLoop m);
    match goal with H : ReadSegment _ = _ |- _ => by rewrite H end.
Qed.

(** The loop ends, with no error, the reader empty and every segment of
    the message added to the index in message order. *)
Lemma parseLoop_readAll m :
  parseLoop m =
  (set_reader (set_segments m (foldl addSegment (segments m) (readAll m))) [],
   None).
Proof.
  remember (length (reader m)) as n eqn:Hn. revert m Hn.
  induction n as [n IH] using lt_wf_ind; intros m ->.
  rewrite parseLoop_step, readAll_step.
  destruct (ReadSegment_cases m) as [(buf & rd & _ & -> & Hlt & _)| ->].
  - rewrite (IH (length rd)); [|done..]. simpl.
    by rewrite readAll_set_segments.
  - by destruct m.
Qed.

Lemma lookup_foldl_addSegment segs : ∀ sg id,
  foldl addSegment sg segs !!! id
  = (sg !!! id) ++ filter (λ s, Type_ s = id) segs.
Proof.
  induction segs as [|s segs IH]; intros sg id; simpl.
  - by rewrite app_nil_r.
  - rewrite IH. unfold addSegment.
    destruct (decide (Type_ s = id)) as [<-|Hne].
    + by rewrite lookup_total_insert_eq, filter_cons_True, <- app_assoc.
    + by rewrite lookup_total_insert_ne, filter_cons_False.
Qed.

Lemma Parse_segments m id :
  (Parse m).2 = None ∧
  segments (Parse m).1 !!! id = filter (λ s, Type_ s = id) (readAll m).
Proof.
  unfold Parse. rewrite parseLoop_readAll; simpl. split; [done|].
  rewrite lookup_foldl_addSegment, readAll_set_segments.
  by rewrite lookup_total_empty.
Qed.

Lemma filter_absent segs id :
  (∀ s, s ∈ segs → Type_ s ≠ id) → filter (λ s, Type_ s = id) segs = [].
Proof.
  intros H. induction segs as [|s segs IH]; [done|].
  rewrite filter_cons_False by (apply H; left).
  apply IH. intros s' Hs'. apply H. by right.
Qed.

(** C6: [GetSegment] never returns an error, for any message and tag.  On
    the message [Parse] leaves, which it does with no error, a tag gives
    the segments of the message that carry it, all of them and in message
    order; a tag no segment carries gives the empty sequence. *)
Theorem GetSegment_never_fails m id :
  (GetSegment m id).2 = None ∧
  ∃ m', Parse m = (m', None) ∧
        GetSegment m' id = (filter (λ s, Type_ s = id) (readAll m), None) ∧
        ((∀ s, s ∈ readAll m → Type_ s ≠ id) → GetSegment m' id = ([], None)).
Proof.
  split; [done|].
  destruct (Parse_segments m id) as [Herr Hseg].
  exists (Parse m).1. split; [by destruct (Parse m); simpl in *; subst|].
  unfold GetSegment. rewrite Hseg. split; [done|].
  intros Habsent. by rewrite filter_absent.
Qed.

Lemma GetSegment_never_fails_witness :
  GetSegment (Parse (messageOf hl7text)).1 "ZZZ" = ([], None).
Proof.
  destruct (GetSegment_never_fails (messageOf hl7text) "ZZZ")
    as (_ & m' & Hparse & _ & Hzzz).
  rewrite Hparse. simpl. apply Hzzz.
  apply Forall_forall. vm_compute. repeat constructor; discriminate.
Defined.

End Index.

(** * Trimming *)

Section Trimming.

Implicit Types (b : byte) (l ws core : list byte).

(** A byte that no white-space rune starts or ends with: an ASCII byte that
    is not white space. *)
Definition plain b : Prop :=
  asciiSpace b = false ∧ (Byte.to_N b < 128)%N.

Definition asciiBlank ws : Prop := Forall (λ b, asciiSpace b = true) ws.

(** A text with no white space at either end: the empty text, or one that
    starts and ends with a plain byte. *)
Definition trimmed core : Prop :=
  core = [] ∨
  ((∃ b core', core = b :: core' ∧ plain b) ∧
   (∃ core' b, core = core' ++ [b] ∧ plain b)).

Lemma eqb_plain_high b c :
  plain b → (128 ≤ Byte.to_N c)%N → Byte.eqb b c = false.
Proof.
  intros [_ Hlow] Hhigh. destruct (Byte.eqb b c) eqn:Heq; [|done].
  apply Byte.byte_dec_bl in Heq as ->. lia.
Qed.

Lemma space2_plain_first b b1 : plain b → space2 b b1 = false.
Proof.
  intros Hb. unfold space2. by rewrite (eqb_plain_high b xc2).
Qed.

Lemma space3_plain_first b b1 b2 : plain b → space3 b b1 b2 = false.
Proof.
  intros Hb. unfold space3.
  by rewrite (eqb_plain_high b xe1), (eqb_plain_high b xe2),
    (eqb_plain_high b xe3).
Qed.

Lemma space2_plain_last b b1 : plain b → space2 b1 b = false.
Proof.
  intros Hb. unfold space2.
  rewrite (eqb_plain_high b x85), (eqb_plain_high b xa0) by done.
  apply andb_false_r.
Qed.

Lemma space3_plain_last b b1 b2 : plain b → space3 b2 b1 b = false.
Proof.
  intros Hb. unfold space3.
  rewrite (eqb_plain_high b x80), (eqb_plain_high b xa8),
    (eqb_plain_high b xa9), (eqb_plain_high b xaf),
    (eqb_plain_high b x9f) by done.
  assert ((128 <=? Byte.to_N b)%N = false) as ->.
  { apply N.leb_gt. apply Hb. }
  by rewrite !andb_false_r.
Qed.

Lemma trimLeft_blank ws l : asciiBlank ws → trimLeft (ws ++ l) = trimLeft l.
Proof. induction 1 as [|b ws Hb _ IH]; simpl; [done|]. by rewrite Hb. Qed.

Lemma trimLeftRev_blank ws l :
  asciiBlank ws → trimLeftRev (ws ++ l) = trimLeftRev l.
Proof. induction 1 as [|b ws Hb _ IH]; simpl; [done|]. by rewrite Hb. Qed.

Lemma trimLeft_plain b l : plain b → trimLeft (b :: l) = b :: l.
Proof.
  intros Hb. simpl. rewrite (proj1 Hb).
  destruct l as [|b1 [|b2 l]]; [done|..];
    rewrite space2_plain_first by done; [done|].
  by rewrite space3_plain_first.
Qed.

Lemma trimLeftRev_plain b l : plain b → trimLeftRev (b :: l) = b :: l.
Proof.
  intros Hb. simpl. rewrite (proj1 Hb).
  destruct l as [|b1 [|b2 l]]; [done|..];
    rewrite space2_plain_last by done; [done|].
  by rewrite space3_plain_last.
Qed.

(** [TrimSpace] drops the ASCII white space around a trimmed text, and
    leaves nothing of a text of ASCII white space only. *)
Lemma TrimSpace_padded ws core ws' :
  asciiBlank ws → asciiBlank ws' → trimmed core →
  TrimSpace (bytes_string (ws ++ core ++ ws')) = bytes_string core.
Proof.
  intros Hws Hws' Hcore. unfold TrimSpace, string_bytes, bytes_string.
  rewrite list_byte_of_string_of_list_byte. f_equal.
  rewrite trimLeft_blank by done. unfold trimRight.
  destruct Hcore as [->|[(b & core' & -> & Hb) (core'' & b' & Hlast & Hb')]].
  - simpl. rewrite <- (app_nil_r ws'), trimLeft_blank by done. reflexivity.
  - rewrite <- app_comm_cons, trimLeft_plain by done.
    rewrite app_comm_cons, rev_app_distr, trimLeftRev_blank
      by by apply Forall_rev.
    rewrite Hlast, rev_unit, trimLeftRev_plain by done.
    by rewrite <- rev_unit, rev_involutive.
Qed.

Lemma bytes_string_nonempty l : l ≠ [] → bytes_string l ≠ "".
Proof. by destruct l. Qed.

End Trimming.

(** * The value binder *)

Section Binder.

Implicit Types (m : Message) (l : Location) (fld : StructField)
  (it st : list StructField) (r : string).

(** What [Get] reads in the first segment under the tag of [l]. *)
Definition addressed (seg0 : Segment) l : string :=
  SubComponent_String
    (GetSubComponent seg0 (Loc.FieldSeq l) 0 (Loc.Comp l) (Loc.SubComp l)).1.

(** A field the binder can serve: when it carries an address, it is a
    string, the address parses and the message has a segment under its
    tag. *)
Definition bindable m fld : Prop :=
  hl7 fld ≠ "" →
  (∃ s, fieldValue fld = StringValue s) ∧
  ∃ l, NewLocation (hl7 fld) = Some l ∧ segments m !!! Loc.Segment l ≠ [].

(** What a turn of the loop leaves in a field whose address led to
    [val]. *)
Definition written fld (val : string) : StructField :=
  if decide (val ≠ "") then
    if CanSet fld then
      mkField (Name fld) (hl7 fld) (CanSet fld) (StringValue (TrimSpace val))
    else fld
  else fld.

Lemma Get_absent m l : segments m !!! Loc.Segment l = [] → Get m l = Panics.
Proof. intros H. unfold Get, GetSegment. by rewrite H. Qed.

Lemma Get_present m l seg0 segs :
  segments m !!! Loc.Segment l = seg0 :: segs →
  Get m l = Returns (addressed seg0 l, None).
Proof.
  intros H. unfold Get, GetSegment, addressed. rewrite H.
  by destruct (GetSubComponent _ _ _ _ _).
Qed.

(** [Get], and so [Find], returns no error when it returns. *)
Lemma Find_no_error m r val err : Find m r = Returns (val, err) → err = None.
Proof.
  unfold Find, Get, GetSegment. destruct (NewLocation r) as [l|]; [|done].
  destruct (segments m !!! Loc.Segment l) as [|seg0 segs]; [done|].
  destruct (GetSubComponent _ _ _ _ _). by intros [= _ <-].
Qed.

Lemma unmarshalField_absent m fld l :
  NewLocation (hl7 fld) = Some l →
  segments m !!! Loc.Segment l = [] →
  unmarshalField m fld = Panics.
Proof.
  intros Hl Hseg. unfold unmarshalField.
  destruct (decide (hl7 fld ≠ "")) as [_|Hr].
  - unfold Find. rewrite Hl, Get_absent by done. reflexivity.
  - apply dec_stable in Hr. by rewrite Hr in Hl.
Qed.

Lemma unmarshalField_present m fld l seg0 segs s :
  hl7 fld ≠ "" → fieldValue fld = StringValue s →
  NewLocation (hl7 fld) = Some l →
  segments m !!! Loc.Segment l = seg0 :: segs →
  unmarshalField m fld = Returns (written fld (addressed seg0 l)).
Proof.
  intros Hr Hs Hl Hseg. unfold unmarshalField, written.
  rewrite decide_True by done.
  unfold Find. rewrite Hl, (Get_present _ _ _ _ Hseg).
  unfold mbind, outcome_bind, SetString; cbn [fst]. rewrite Hs.
  destruct (decide (addressed seg0 l ≠ "")); [|done].
  by destruct (CanSet fld).
Qed.

Lemma unmarshalField_untagged m fld :
  hl7 fld = "" → unmarshalField m fld = Returns fld.
Proof. intros H. unfold unmarshalField. by rewrite decide_False by auto. Qed.

Lemma unmarshalLoop_panics m it fld :
  fld ∈ it → unmarshalField m fld = Panics → unmarshalLoop m it = Panics.
Proof.
  intros Hin Hfld. induction Hin as [fld it|fld fld' it _ IH]; simpl.
  - by rewrite Hfld.
  - destruct (unmarshalField m fld'); [|done]. simpl. by rewrite IH.
Qed.

(** When every turn returns, the loop returns, field by field. *)
Lemma unmarshalLoop_returns m it :
  Forall (λ fld, ∃ fld', unmarshalField m fld = Returns fld') it →
  ∃ st, unmarshalLoop m it = Returns st ∧
        Forall2 (λ fld fld', unmarshalField m fld = Returns fld') it st.
Proof.
  induction 1 as [|fld it [fld' Hfld] _ (st & Hst & Hall)]; simpl.
  - by exists [].
  - exists (fld' :: st). rewrite Hfld; simpl. rewrite Hst; simpl.
    split; [done|]. by constructor.
Qed.

Lemma bindable_returns m fld :
  bindable m fld → ∃ fld', unmarshalField m fld = Returns fld'.
Proof.
  intros Hb. destruct (decide (hl7 fld = "")) as [Hr|Hr].
  - eexists. by apply unmarshalField_untagged.
  - destruct (Hb Hr) as [[s Hs] (l & Hl & Hseg)].
    destruct (segments m !!! Loc.Segment l) as [|seg0 segs] eqn:Hsegs; [done|].
    eexists. by eapply unmarshalField_present.
Qed.

Lemma Unmarshal_bindable m it :
  Forall (bindable m) it →
  ∃ st, Unmarshal m it = Returns (st, None) ∧
        Forall2 (λ fld fld', unmarshalField m fld = Returns fld') it st.
Proof.
  intros Hit.
  destruct (unmarshalLoop_returns m it) as (st & Hst & Hall).
  { eapply Forall_impl; [exact Hit|]. apply bindable_returns. }
  exists st. unfold Unmarshal. by rewrite Hst.
Qed.

Lemma unmarshalField_skips m fld fld' :
  unmarshalField m fld = Returns fld' →
  hl7 fld = "" ∨ CanSet fld = false ∨
    (∃ err, Find m (hl7 fld) = Returns ("", err)) →
  fld' = fld.
Proof.
  unfold unmarshalField. intros Hret Hskip.
  destruct (decide (hl7 fld ≠ "")) as [Hr|_]; [|congruence].
  destruct Hskip as [?|[Hset|[err Hfind]]]; [done|..].
  - destruct (Find m (hl7 fld)) as [[val err]|]; [|done].
    unfold mbind, outcome_bind in Hret; cbn [fst] in Hret.
    rewrite Hset in Hret. destruct (decide (val ≠ "")); congruence.
  - rewrite Hfind in Hret. unfold mbind, outcome_bind in Hret.
    cbn [fst] in Hret. rewrite decide_False in Hret by auto. congruence.
Qed.

Lemma addressed_field_0 (seg0 : Segment) l :
  Loc.FieldSeq l = 0%Z → addressed seg0 l = Type_ seg0.
Proof.
  intros H. unfold addressed, GetSubComponent. rewrite H; simpl.
  unfold SubComponent_String, Type_, fields; simpl.
  by destruct (isHeader seg0).
Qed.

(** C1: on a materialized message, an address whose segment tag no
    segment of the message carries stops the bind with a run-time panic:
    [Get] indexes the empty sequence [GetSegment] returned.  The bind does
    not go on to the other fields and does not return. *)
Theorem Unmarshal_absent_tag_panics (m0 : Message) it fld l :
  fld ∈ it →
  NewLocation (hl7 fld) = Some l →
  (∀ s, s ∈ readAll m0 → Type_ s ≠ Loc.Segment l) →
  Unmarshal (Parse m0).1 it = Panics.
Proof.
  intros Hin Hl Habsent.
  destruct (Parse_segments m0 (Loc.Segment l)) as [_ Hseg].
  rewrite filter_absent in Hseg by done.
  unfold Unmarshal.
  by rewrite (unmarshalLoop_panics _ _ fld Hin (unmarshalField_absent _ _ _ Hl Hseg)).
Qed.

Lemma Unmarshal_absent_tag_panics_witness :
  Unmarshal (Parse (messageOf minimal)).1 (PIDMessage "" "" "" "") = Panics.
Proof.
  apply (Unmarshal_absent_tag_panics (messageOf minimal) _
           (mkField "Id" "PID.0.0" true (StringValue ""))
           (Loc.mkLocation "PID" 0 0 0)).
  - by left.
  - by vm_compute.
  - apply Forall_forall. vm_compute. repeat constructor; discriminate.
Defined.

(** C8, as the code has it: binding the struct of the test against the
    reference message sets Id to PID (address PID.0.0), FirstName to CURTIS,
    LastName to SMITH and Ehr to CERNER (address MSH.2.0), and it sets the
    same values when white space surrounds them in the message.  In
    general, when the message holds the segments the addresses name, each
    string field that can be set is set to the value [Get] reads in the
    first segment under the tag, with the white space around it trimmed,
    whenever that value, before trimming, is not empty: a value of white
    space only is written as the empty string, and a field whose value is
    empty, or that cannot be set, is left as it was.  An address with field
    index 0 reads the segment's own tag. *)
Theorem Unmarshal_binds :
  (∃ m, NewMessage hl7text = (Some m, None) ∧
        Unmarshal (Parse m).1 (PIDMessage "" "" "" "")
        = Returns (PIDMessage "PID" "CURTIS" "SMITH" "CERNER", None)) ∧
  (∃ m, NewMessage paddedText = (Some m, None) ∧
        Find (Parse m).1 "MSH.2.0" = Returns (" CERNER " +:+ tab, None) ∧
        Unmarshal (Parse m).1 (PIDMessage "" "" "" "")
        = Returns (PIDMessage "PID" "CURTIS" "SMITH" "CERNER", None)) ∧
  (∀ m it,
      Forall (bindable m) it →
      ∃ st, Unmarshal m it = Returns (st, None) ∧
            ∀ i fld l seg0 segs,
              it !! i = Some fld →
              hl7 fld ≠ "" →
              NewLocation (hl7 fld) = Some l →
              segments m !!! Loc.Segment l = seg0 :: segs →
              st !! i = Some (written fld (addressed seg0 l)) ∧
              (addressed seg0 l = "" ∨ CanSet fld = false →
               st !! i = Some fld) ∧
              (∀ ws core ws',
                  CanSet fld = true →
                  addressed seg0 l = bytes_string (ws ++ core ++ ws') →
                  ws ++ core ++ ws' ≠ [] →
                  asciiBlank ws → asciiBlank ws' → trimmed core →
                  st !! i
                  = Some (mkField (Name fld) (hl7 fld) true
                            (StringValue (bytes_string core))))) ∧
  (∀ (seg0 : Segment) l, Loc.FieldSeq l = 0%Z → addressed seg0 l = Type_ seg0).
Proof.
  split; [|split; [|split]].
  - eexists. split; [reflexivity|]. by vm_compute.
  - eexists. split; [reflexivity|]. split; by vm_compute.
  - intros m it Hit.
    destruct (Unmarshal_bindable m it Hit) as (st & Hst & Hall).
    exists st. split; [done|].
    intros i fld l seg0 segs Hi Hr Hl Hseg.
    destruct (Forall2_lookup_l _ _ _ _ _ Hall Hi) as (fld' & Hi' & Hfld).
    rewrite Forall_lookup in Hit.
    destruct (Hit i fld Hi Hr) as [[s Hs] _].
    rewrite (unmarshalField_present m fld l seg0 segs s) in Hfld by done.
    injection Hfld as <-. split; [done|]. split.
    + rewrite Hi'. unfold written. intros [->| ->]; [done|].
      by destruct (decide _).
    + intros ws core ws' Hset Hval Hne Hws Hws' Hcore.
      rewrite Hi'. unfold written. rewrite Hval, Hset.
      rewrite decide_True by by apply bytes_string_nonempty.
      by rewrite TrimSpace_padded.
  - apply addressed_field_0.
Qed.

Lemma Unmarshal_binds_witness :
  ∃ st, Unmarshal (Parse (messageOf paddedText)).1
          [mkField "Ehr" "MSH.2.0" true (StringValue "old");
           mkField "Note" "" true (StringValue "kept")]
        = Returns (st, None) ∧
        st !! 0 = Some (mkField "Ehr" "MSH.2.0" true (StringValue "CERNER")).
Proof.
  destruct Unmarshal_binds as (_ & _ & Hgen & _).
  destruct (Hgen (Parse (messageOf paddedText)).1
              [mkField "Ehr" "MSH.2.0" true (StringValue "old");
               mkField "Note" "" true (StringValue "kept")])
    as (st & Hst & Hval).
  - repeat first [apply Forall_nil_2 | apply Forall_cons_2]; intros Hr; [|done].
    split; [by eexists|]. exists (Loc.mkLocation "MSH" 2 0 0).
    split; by vm_compute.
  - exists st. split; [exact Hst|].
    destruct (Hval 0 (mkField "Ehr" "MSH.2.0" true (StringValue "old"))
                (Loc.mkLocation "MSH" 2 0 0)
                (segmentOf (messageOf paddedText)
                   (string_bytes
                      ("MSH|^~\&| CERNER " +:+ tab +:+ "|PriorityHealth")))
                []) as (_ & _ & Htrim); [by vm_compute..|].
    apply (Htrim (string_bytes " ") (string_bytes "CERNER")
             (string_bytes (" " +:+ tab))).
    + reflexivity.
    + by vm_compute.
    + discriminate.
    + by repeat constructor.
    + by repeat constructor.
    + right. split.
      * eexists _, _. split; [reflexivity|]. split; [done|]. by vm_compute.
      * exists (string_bytes "CERNE"), "R"%byte.
        split; [reflexivity|]. split; [done|]. by vm_compute.
Defined.

(** C8, as the claim states it, fails on a value of white space only: the
    last field of the OBX segment of the reference message is one tab, which
    is not empty, so the field is written, with the empty string the
    trimming leaves, over what it held. *)
Lemma Unmarshal_blank_value_clears :
  Find (Parse (messageOf hl7text)).1 "OBX.15" = Returns (tab, None) ∧
  TrimSpace tab = "" ∧
  Unmarshal (Parse (messageOf hl7text)).1
    [mkField "Note" "OBX.15" true (StringValue "old1")]
  = Returns ([mkField "Note" "OBX.15" true (StringValue "")], None).
Proof. repeat split; by vm_compute. Qed.

(** C9, as the code has it: when [Unmarshal] returns, the error is nil,
    and so is the error of every [Find] that returns; and [Unmarshal] does
    return, whatever the lookups give inside their segments, when every
    field with an address is a string whose address parses and names a tag
    the message has a segment for.  A field is then left as it was when it
    has no address, cannot be set, or its value is empty. *)
Theorem Unmarshal_returns_nil m it :
  (∀ st err, Unmarshal m it = Returns (st, err) → err = None) ∧
  (∀ r val err, Find m r = Returns (val, err) → err = None) ∧
  (Forall (bindable m) it →
   ∃ st, Unmarshal m it = Returns (st, None) ∧
         length st = length it ∧
         ∀ i fld,
           it !! i = Some fld →
           hl7 fld = "" ∨ CanSet fld = false ∨
             (∃ err, Find m (hl7 fld) = Returns ("", err)) →
           st !! i = Some fld).
Proof.
  split; [|split].
  - intros st err. unfold Unmarshal.
    destruct (unmarshalLoop m it); [|done]. by intros [= _ <-].
  - apply Find_no_error.
  - intros Hit.
    destruct (Unmarshal_bindable m it Hit) as (st & Hst & Hall).
    exists st. split; [done|]. split.
    { symmetry. by eapply Forall2_length. }
    intros i fld Hi Hskip.
    destruct (Forall2_lookup_l _ _ _ _ _ Hall Hi) as (fld' & Hi' & Hfld).
    by rewrite (unmarshalField_skips m fld fld' Hfld Hskip) in Hi'.
Qed.

Lemma Unmarshal_returns_nil_witness :
  ∃ st, Unmarshal (Parse (messageOf hl7text)).1
          [mkField "Missing" "PID.99.4" true (StringValue "unset");
           mkField "count" "PID.5" false (StringValue "")]
        = Returns (st, None) ∧ length st = 2.
Proof.
  destruct (Unmarshal_returns_nil (Parse (messageOf hl7text)).1
              [mkField "Missing" "PID.99.4" true (StringValue "unset");
               mkField "count" "PID.5" false (StringValue "")])
    as (_ & _ & Hret).
  destruct Hret as (st & Hst & Hlen & _).
  - repeat first [apply Forall_nil_2 | apply Forall_cons_2]; intros Hr;
      (split; [by eexists|]).
    + exists (Loc.mkLocation "PID" 99 4 0). split; by vm_compute.
    + exists (Loc.mkLocation "PID" 5 0 0). split; by vm_compute.
  - exists st. split; [exact Hst | exact Hlen].
Defined.

(** C9, as the claim states it, fails on a field of another kind than
    string: [SetString] panics and [Unmarshal] does not return. *)
Lemma Unmarshal_other_kind_panics :
  Unmarshal (Parse (messageOf hl7text)).1
    [mkField "Ehr" "MSH.2.0" true OtherValue] = Panics ∧
  Forall (λ fld, ∃ l, NewLocation (hl7 fld) = Some l ∧
                      segments (Parse (messageOf hl7text)).1
                        !!! Loc.Segment l ≠ [])
    [mkField "Ehr" "MSH.2.0" true OtherValue].
Proof.
  split; [by vm_compute|].
  repeat first [apply Forall_nil_2 | apply Forall_cons_2].
  exists (Loc.mkLocation "MSH" 2 0 0).
  split; by vm_compute.
Qed.

End Binder.

(** * Locations *)

Section Locations.

Implicit Types (s tag : string) (c : ascii) (n : N).

(** The decimal writing of an index. *)
Definition decimal n : string := NilZero.string_of_uint (N.to_uint n).

(** A token: a string with no dot in it. *)
Fixpoint dotFree s : bool :=
  match s with
  | EmptyString => true
  | String c s' => negb (Ascii.eqb c ".") && dotFree s'
  end.

Lemma Split_not_nil s c : Split s c ≠ [].
Proof.
  destruct s as [|c' s]; simpl; [done|].
  destruct (Ascii.eqb c' c); [done|]. by destruct (Split s c).
Qed.

Lemma Split_token s : dotFree s = true → Split s "." = [s].
Proof.
  induction s as [|c s IH]; simpl; [done|].
  intros [Hc Hs]%andb_true_iff. apply negb_true_iff in Hc.
  by rewrite Hc, IH.
Qed.

Lemma Split_dot s s' :
  dotFree s = true → Split (s +:+ String "." s') "." = s :: Split s' ".".
Proof.
  induction s as [|c s IH]; simpl; [done|].
  intros [Hc Hs]%andb_true_iff. apply negb_true_iff in Hc.
  by rewrite Hc, IH.
Qed.

Lemma append_dot s s' : s +:+ "." +:+ s' = s +:+ String "." s'.
Proof. reflexivity. Qed.

Lemma dotFree_digits d : dotFree (NilEmpty.string_of_uint d) = true.
Proof. induction d; simpl; auto. Qed.

Lemma dotFree_decimal n : dotFree (decimal n) = true.
Proof.
  unfold decimal, NilZero.string_of_uint.
  destruct (N.to_uint n); try done; apply (dotFree_digits (_ _)).
Qed.

Lemma Atoi_decimal n : Atoi (decimal n) = Some (Z.of_N n).
Proof.
  unfold Atoi, decimal. rewrite NilZero.usu.
  - simpl. unfold Z.of_uint. f_equal. f_equal. apply DecimalN.Unsigned.of_to.
  - destruct n; [done|]. apply DecimalPos.Unsigned.to_uint_nonnil.
Qed.

(** C7: PID.5.1 parses to segment PID, field 5, component 1, subcomponent
    0, and MSH.0 to segment MSH, field 0, component 0, subcomponent 0.  In
    general the tag is the token before the first dot, the field index the
    token after it, and a component or subcomponent token that is left
    out gives 0. *)
Theorem NewLocation_parses :
  NewLocation "PID.5.1" = Some (Loc.mkLocation "PID" 5 1 0) ∧
  NewLocation "MSH.0" = Some (Loc.mkLocation "MSH" 0 0 0) ∧
  (∀ tag (field comp subcomp : N),
      tag ≠ "" → dotFree tag = true →
      NewLocation (tag +:+ "." +:+ decimal field)
      = Some (Loc.mkLocation tag (Z.of_N field) 0 0) ∧
      NewLocation (tag +:+ "." +:+ decimal field +:+ "." +:+ decimal comp)
      = Some (Loc.mkLocation tag (Z.of_N field) (Z.of_N comp) 0) ∧
      NewLocation (tag +:+ "." +:+ decimal field +:+ "." +:+ decimal comp
                   +:+ "." +:+ decimal subcomp)
      = Some (Loc.mkLocation tag (Z.of_N field) (Z.of_N comp)
                (Z.of_N subcomp))).
Proof.
  split; [by vm_compute|]. split; [by vm_compute|].
  intros tag field comp subcomp Htag Hfree.
  unfold NewLocation.
  pose proof (dotFree_decimal field) as Hf.
  pose proof (dotFree_decimal comp) as Hc.
  pose proof (dotFree_decimal subcomp) as Hs.
  rewrite !append_dot.
  repeat split.
  - rewrite Split_dot, Split_token by done.
    rewrite decide_False by done. by rewrite Atoi_decimal.
  - rewrite !Split_dot, Split_token by done.
    rewrite decide_False by done. by rewrite !Atoi_decimal.
  - rewrite !Split_dot, Split_token by done.
    rewrite decide_False by done. by rewrite !Atoi_decimal.
Qed.

Lemma NewLocation_parses_witness :
  NewLocation "OBX.14.0.2" = Some (Loc.mkLocation "OBX" 14 0 2).
Proof.
  destruct NewLocation_parses as (_ & _ & Hgen).
  destruct (Hgen "OBX" 14%N 0%N 2%N) as (_ & _ & H); [done..|].
  exact H.
Defined.

End Locations.


(** * What one call reads *)

Section Decomposition.

Implicit Types (m : Message) (rd buf ws line : list byte) (b : byte).

(** Once a byte is saved, the loop copies the reader up to the first
    terminator or to its end. *)
Lemma readLoop_started rd : ∀ buf,
  buf ≠ [] →
  ∃ line, (readLoop rd buf).1 = buf ++ line ∧
          Forall (λ b, b ≠ CR ∧ b ≠ LF) line ∧
          ((rd = line ∧ (readLoop rd buf).2 = []) ∨
           ∃ b, terminator b ∧ rd = line ++ b :: (readLoop rd buf).2).
Proof.
  induction rd as [|b rd IH]; intros buf Hbuf; simpl.
  - exists []. rewrite app_nil_r. auto.
  - assert ((length buf =? 0) = false) as -> by by destruct buf.
    simpl. destruct (Byte.eqb b CR || Byte.eqb b LF) eqn:Hterm; simpl.
    + apply terminator_eqb in Hterm. exists []. rewrite app_nil_r.
      split; [done|]. split; [done|]. right. by exists b.
    + destruct (IH (buf ++ [b])) as (line & Hbuf' & Hline & Hrd);
        [by destruct buf|].
      exists (b :: line). rewrite Hbuf', <- app_assoc. split; [done|]. split.
      * constructor; [|done].
        apply not_true_iff_false in Hterm. rewrite terminator_eqb in Hterm.
        unfold terminator in Hterm. tauto.
      * destruct Hrd as [[-> Hnil]|(t & Ht & Hrd)]; [by left|].
        right. exists t. split; [done|]. simpl. by f_equal.
Qed.

(** The loop skips white space, then copies a line. *)
Lemma readLoop_decomposes rd :
  ∃ ws, blank ws ∧
        Forall (λ b, b ≠ CR ∧ b ≠ LF) (readLoop rd []).1 ∧
        ((rd = ws ++ (readLoop rd []).1 ∧ (readLoop rd []).2 = []) ∨
         ((readLoop rd []).1 ≠ [] ∧
          ∃ b, terminator b ∧
               rd = ws ++ (readLoop rd []).1 ++ b :: (readLoop rd []).2)).
Proof.
  induction rd as [|b rd (ws & Hws & Hline & Hrd)]; simpl.
  - exists []. split; [constructor|]. split; [constructor|]. by left.
  - destruct (IsSpace b) eqn:Hsp.
    + exists (b :: ws). split; [by constructor|]. split; [done|].
      destruct Hrd as [[Hrd Hnil]|(Hne & t & Ht & Hrd)].
      * left. split; [|done]. simpl. by f_equal.
      * right. split; [done|]. exists t. split; [done|]. simpl. by f_equal.
    + assert (Byte.eqb b CR || Byte.eqb b LF = false) as Hterm.
      { apply not_true_iff_false. rewrite terminator_eqb.
        intros Ht%terminator_space. congruence. }
      rewrite Hterm.
      destruct (readLoop_started rd [b]) as (line & Hbuf & Hline' & Hrd');
        [done|].
      exists []. split; [constructor|]. rewrite Hbuf. split.
      { constructor; [|done].
        apply not_true_iff_false in Hterm. rewrite terminator_eqb in Hterm.
        unfold terminator in Hterm. tauto. }
      destruct Hrd' as [[-> Hnil]|(t & Ht & Hrd')]; [by left|].
      right. split; [done|]. exists t. split; [done|]. simpl. by f_equal.
Qed.

(** X1: a call of [ReadSegment] changes nothing of the message but the
    reader.  When it returns a segment, the reader held white space, then
    the bytes of the segment, then either nothing, and the reader is left
    empty, or a terminator and what the reader is left with; the segment
    carries the delimiters of the message, starts with a byte that is not
    white space and holds no terminator.  When it returns an error, the
    error is [io.EOF], the reader held white space only and is left
    empty. *)
Theorem ReadSegment_decomposes m segment err m1 :
  ReadSegment m = ((segment, err), m1) →
  m1 = set_reader m (reader m1) ∧
  ∃ ws, blank ws ∧
    ((err = None ∧ segment = segmentOf m (Value segment) ∧
      lineOK (Value segment) ∧
      ((reader m = ws ++ Value segment ∧ reader m1 = []) ∨
       ∃ b, terminator b ∧ reader m = ws ++ Value segment ++ b :: reader m1)) ∨
     (err = Some EOF ∧ segment = zeroSegment ∧
      reader m = ws ∧ reader m1 = [])).
Proof.
  unfold ReadSegment.
  pose proof (readLoop_decomposes (reader m)) as (ws & Hws & Hline & Hrd).
  pose proof (readLoop_saved (reader m) [] (Forall_nil_2 _) (or_introl eq_refl))
    as [_ Hhd].
  destruct (readLoop (reader m) []) as [buf rd]; simpl in *.
  destruct buf as [|b buf]; simpl; intros [= <- <- <-]; (split; [done|]);
    exists ws; (split; [done|]).
  - right. destruct Hrd as [[Hrd ->]|[? _]]; [|done].
    by rewrite app_nil_r in Hrd.
  - left. split; [done|]. split; [done|]. split.
    + split; [|done]. destruct Hhd as [?|?]; [done|eauto].
    + destruct Hrd as [?|(_ & t & Ht & Hrd)]; [by left|].
      right. by exists t.
Qed.

Lemma ReadSegment_decomposes_witness :
  ∃ ws, blank ws ∧
    ∃ b, terminator b ∧
         reader (messageOf twoSegmentsCRLF) = ws ++ minimal ++ b :: LF :: minimal.
Proof.
  destruct (ReadSegment_decomposes (messageOf twoSegmentsCRLF)
              (segmentOf (messageOf twoSegmentsCRLF) minimal) None
              (set_reader (messageOf twoSegmentsCRLF) (LF :: minimal)))
    as (_ & ws & Hws & [(_ & _ & _ & [[Hrd Hnil]|(b & Hb & Hrd)])|(H & _)]);
    [reflexivity|discriminate Hnil| |discriminate H].
  exists ws. split; [exact Hws|]. exists b. split; [exact Hb | exact Hrd].
Defined.

(** X2: [ReadSegment] signals end of stream exactly when the reader holds
    nothing but white space, the empty reader included; the message then
    has no segment. *)
Theorem ReadSegment_EOF_iff_blank m :
  ((ReadSegment m).1.2 = Some EOF ↔ blank (reader m)) ∧
  (readAll m = [] ↔ blank (reader m)).
Proof.
  assert ((ReadSegment m).1.2 = Some EOF ↔ blank (reader m)) as Heof.
  { split.
    - destruct (ReadSegment m) as [[segment err] m1] eqn:Hcall; simpl.
      intros ->.
      apply ReadSegment_decomposes in Hcall
        as (_ & ws & Hws & [(? & _)|(_ & _ & -> & _)]); done.
    - intros Hws. by rewrite (ReadSegment_blank m (reader m)). }
  split; [done|]. rewrite <- Heof, readAll_step.
  destruct (ReadSegment m) as [[segment [err|]] m1] eqn:Hcall; simpl.
  - apply ReadSegment_error in Hcall as (_ & -> & _). done.
  - split; done.
Qed.

End Decomposition.


(** * What the calls read together *)

Section Streams.

Implicit Types (m : Message) (k : nat) (ws line last : list byte).

(** The segments written back, each ended by a carriage return. *)
Definition rejoin (segs : list Segment) : list byte :=
  flat_map (λ s, Value s ++ [CR]) segs.

Lemma segmentOf_set_reader m rd buf :
  segmentOf (set_reader m rd) buf = segmentOf m buf.
Proof. reflexivity. Qed.

(** X3: whatever the reader holds is white space, then lines that each end
    with a terminator and white space, then possibly a last line with no
    terminator; the segments of the message are exactly these lines, in
    order, each with the delimiters of the message.  No byte of the reader
    is lost other than white space and one terminator per line. *)
Theorem reader_decomposes m :
  ∃ ws lines last,
    blank ws ∧ Forall boundaryOK lines ∧ (last = [] ∨ lineOK last) ∧
    reader m = ws ++ joined lines ++ last ∧
    readAll m =
    segmentOf m <$> ((λ x, x.1.1) <$> lines)
                    ++ (if last is [] then [] else [last]).
Proof.
  assert (∃ ws lines last,
             blank ws ∧ Forall boundaryOK lines ∧ (last = [] ∨ lineOK last) ∧
             reader m = ws ++ joined lines ++ last)
    as (ws & lines & last & Hws & Hlines & Hlast & Hrd).
  2: { exists ws, lines, last. repeat (split; [done|]).
       by apply (readAll_joined lines m ws last). }
  remember (length (reader m)) as n eqn:Hn. revert m Hn.
  induction n as [n IH] using lt_wf_ind; intros m ->.
  destruct (ReadSegment m) as [[segment err] m1] eqn:Hcall.
  pose proof (ReadSegment_progress m m1 segment) as Hlt.
  apply ReadSegment_decomposes in Hcall
    as (_ & ws & Hws & [(-> & _ & Hline & [[Hrd _]|(b & Hb & Hrd)])
                       |(_ & _ & Hrd & _)]).
  - exists ws, [], (Value segment). simpl. auto.
  - destruct (IH (length (reader m1))) with (m := m1)
      as (ws' & lines & last & Hws' & Hlines & Hlast & Hrd'); [|done|].
    { rewrite Hrd, !length_app. simpl. lia. }
    exists ws, ((Value segment, b, ws') :: lines), last.
    split; [done|]. split; [by constructor|]. split; [done|].
    rewrite Hrd, Hrd'. simpl. by rewrite <- !app_assoc.
  - exists ws, [], []. simpl. rewrite app_nil_r. auto using Forall_nil_2.
Qed.

(** The segments of a message are lines and carry its delimiters. *)
Lemma readAll_lines m :
  ∃ lines, Forall lineOK lines ∧ readAll m = segmentOf m <$> lines.
Proof.
  destruct (reader_decomposes m)
    as (ws & lines & last & _ & Hlines & Hlast & _ & ->).
  eexists. split; [|reflexivity].
  apply Forall_app. split.
  - apply Forall_fmap. eapply Forall_impl; [exact Hlines|]. by intros ? [? _].
  - destruct Hlast as [->|Hlast]; [constructor|].
    destruct last; [constructor|]. by apply Forall_cons_2.
Qed.

Lemma rejoin_joined m lines :
  rejoin (segmentOf m <$> lines) = joined ((λ line, (line, CR, [])) <$> lines).
Proof.
  induction lines as [|line lines IH]; [done|].
  change (rejoin (segmentOf m <$> line :: lines))
    with ((line ++ [CR]) ++ rejoin (segmentOf m <$> lines)).
  by rewrite IH.
Qed.

(** X4: the segments of a message written back, each followed by a
    carriage return, and read again are the same segments: leading white
    space, blank lines and the choice of terminators are all that the
    tokenizer drops. *)
Theorem readAll_rejoin m :
  readAll (set_reader m (rejoin (readAll m))) = readAll m.
Proof.
  destruct (readAll_lines m) as (lines & Hlines & ->).
  rewrite (readAll_joined ((λ line, (line, CR, [])) <$> lines)
             (set_reader m _) [] []).
  - rewrite app_nil_r.
    change (segmentOf (set_reader m ?rd)) with (segmentOf m).
    f_equal. clear Hlines.
    induction lines as [|line lines IH]; simpl; [done|]. by f_equal.
  - constructor.
  - apply Forall_fmap. eapply Forall_impl; [exact Hlines|].
    intros line Hline. split; [exact Hline|]. split; [by left|constructor].
  - by left.
  - cbn [reader set_reader]. rewrite app_nil_r. apply rejoin_joined.
Qed.

(** X7: the calls made before reading the rest take their segments away:
    after [k] calls of [ReadSegment] the segments left are those of the
    message without the first [k], and these are the ones [Parse] then puts
    in the index. *)
Theorem readAll_after_calls m k :
  readAll (run k m) = drop k (readAll m) ∧
  ∀ id, (GetSegment (Parse (run k m)).1 id).1
        = filter (λ s, Type_ s = id) (drop k (readAll m)).
Proof.
  assert (readAll (run k m) = drop k (readAll m)) as Hdrop.
  { revert m. induction k as [|k IH]; intros m; simpl; [done|].
    rewrite (readAll_step m).
    destruct (ReadSegment m) as [[segment [err|]] m1] eqn:Hcall; simpl.
    - apply ReadSegment_error in Hcall as (_ & _ & Hnil).
      by rewrite run_exhausted, readAll_exhausted.
    - apply IH. }
  split; [done|]. intros id. simpl.
  destruct (Parse_segments (run k m) id) as [_ ->]. by rewrite Hdrop.
Qed.

End Streams.


(** * The index after [Parse] *)

Section Materialized.

Implicit Types (m : Message) (sg : gmap string (list Segment))
  (segs : list Segment) (id : string).

(** Every key of the index leads to a sequence that is not empty. *)
Definition noEmptyEntry sg : Prop :=
  ∀ id, sg !! id = match sg !!! id with [] => None | l => Some l end.

Lemma noEmptyEntry_empty : noEmptyEntry ∅.
Proof. intros id. by rewrite lookup_empty, lookup_total_empty. Qed.

Lemma noEmptyEntry_addSegment sg (segment : Segment) :
  noEmptyEntry sg → noEmptyEntry (addSegment sg segment).
Proof.
  intros Hsg id. unfold addSegment.
  destruct (decide (Type_ segment = id)) as [<-|Hne].
  - rewrite lookup_insert_eq, lookup_total_insert_eq.
    by destruct (sg !!! Type_ segment).
  - rewrite lookup_insert_ne, lookup_total_insert_ne by done. apply Hsg.
Qed.

Lemma noEmptyEntry_foldl segs : ∀ sg,
  noEmptyEntry sg → noEmptyEntry (foldl addSegment sg segs).
Proof.
  induction segs as [|s segs IH]; intros sg Hsg; simpl; [done|].
  by apply IH, noEmptyEntry_addSegment.
Qed.

(** X5: [Parse] leaves the reader empty and the delimiters as they were, so
    every later call of [ReadSegment] returns end of stream; and a second
    [Parse] returns no error and leaves an empty index: every lookup after
    it finds nothing. *)
Theorem Parse_exhausts m :
  reader (Parse m).1 = [] ∧
  (fieldSep (Parse m).1, compSep (Parse m).1, subCompSep (Parse m).1,
   repeat (Parse m).1, escape (Parse m).1)
  = (fieldSep m, compSep m, subCompSep m, repeat m, escape m) ∧
  (∀ k, call k (Parse m).1 = (zeroSegment, Some EOF)) ∧
  Parse (Parse m).1 = (set_segments (Parse m).1 ∅, None) ∧
  (∀ id, GetSegment (Parse (Parse m).1).1 id = ([], None)).
Proof.
  assert (reader (Parse m).1 = []) as Hrd.
  { unfold Parse. by rewrite parseLoop_readAll. }
  assert (Parse (Parse m).1 = (set_segments (Parse m).1 ∅, None)) as Htwice.
  { unfold Parse at 1. rewrite parseLoop_readAll.
    rewrite readAll_set_segments, readAll_exhausted by done. simpl.
    f_equal. rewrite <- Hrd at 1. by destruct (Parse m).1. }
  split; [done|]. split; [unfold Parse; by rewrite parseLoop_readAll|].
  split; [intros k; by apply call_exhausted|]. split; [done|].
  intros id. rewrite Htwice. unfold GetSegment; simpl.
  by rewrite lookup_total_empty.
Qed.

(** X6: the index [Parse] builds has a key exactly for the tags that occur
    in the message: a tag some segment carries leads to the segments that
    carry it, in message order, and a tag no segment carries has no
    entry.  No entry is an empty sequence. *)
Theorem Parse_index_keys m id :
  segments (Parse m).1 !! id
  = match filter (λ s, Type_ s = id) (readAll m) with
    | [] => None
    | l => Some l
    end.
Proof.
  destruct (Parse_segments m id) as [_ <-].
  unfold Parse. rewrite parseLoop_readAll. simpl.
  apply noEmptyEntry_foldl, noEmptyEntry_empty.
Qed.

Lemma filter_first segs segs' (segment : Segment) id :
  (∀ s, s ∈ segs → Type_ s ≠ id) → Type_ segment = id →
  filter (λ s, Type_ s = id) (segs ++ segment :: segs')
  = segment :: filter (λ s, Type_ s = id) segs'.
Proof.
  intros Hpre Hid.
  by rewrite filter_app, filter_absent, filter_cons_True.
Qed.

(** X11: on the message [Parse] leaves, [Get] reads the first segment of
    the message, in message order, that carries the tag of the location,
    and returns no error; the segments after it, same tag or not, play no
    part. *)
Theorem Get_first_segment m (l : Location) segs segs' (segment : Segment) :
  readAll m = segs ++ segment :: segs' →
  (∀ s, s ∈ segs → Type_ s ≠ Loc.Segment l) →
  Type_ segment = Loc.Segment l →
  Get (Parse m).1 l
  = Returns (SubComponent_String
               (GetSubComponent segment (Loc.FieldSeq l) 0 (Loc.Comp l)
                  (Loc.SubComp l)).1,
             None).
Proof.
  intros Hall Hpre Hid.
  apply (Get_present _ _ _ (filter (λ s, Type_ s = Loc.Segment l) segs')).
  destruct (Parse_segments m (Loc.Segment l)) as [_ ->].
  rewrite Hall. by apply filter_first.
Qed.

Lemma Get_first_segment_witness :
  Get (Parse (messageOf twoSegments)).1 (Loc.mkLocation "MSH" 0 0 0)
  = Returns ("MSH", None).
Proof.
  etrans.
  - apply (Get_first_segment (messageOf twoSegments)
             (Loc.mkLocation "MSH" 0 0 0) []
             [segmentOf (messageOf twoSegments) minimal]
             (segmentOf (messageOf twoSegments) minimal)).
    + by vm_compute.
    + intros s Hs. by apply elem_of_nil in Hs.
    + by vm_compute.
  - by vm_compute.
Defined.

End Materialized.


(** * What the binder keeps *)

Section Binding.

Implicit Types (m : Message) (l : Location) (fld : StructField)
  (it st : list StructField).

(** What a turn of the loop may change in a field: nothing but the value,
    and only of a string field that has an address and can be set. *)
Definition sameField fld fld' : Prop :=
  Name fld' = Name fld ∧ hl7 fld' = hl7 fld ∧ CanSet fld' = CanSet fld ∧
  (hl7 fld = "" ∨ CanSet fld = false ∨ fieldValue fld = OtherValue →
   fld' = fld) ∧
  (∀ s, fieldValue fld = StringValue s → ∃ s', fieldValue fld' = StringValue s').

Lemma unmarshalLoop_turns m it : ∀ st,
  unmarshalLoop m it = Returns st →
  Forall2 (λ fld fld', unmarshalField m fld = Returns fld') it st.
Proof.
  induction it as [|fld it IH]; intros st; simpl.
  - intros [= <-]. constructor.
  - destruct (unmarshalField m fld) as [fld'|] eqn:Hfld; [|done]. simpl.
    destruct (unmarshalLoop m it) as [st'|]; [|done]. simpl.
    intros [= <-]. constructor; [done|]. by apply IH.
Qed.

Lemma Unmarshal_turns m it st err :
  Unmarshal m it = Returns (st, err) →
  err = None ∧ Forall2 (λ fld fld', unmarshalField m fld = Returns fld') it st.
Proof.
  unfold Unmarshal.
  destruct (unmarshalLoop m it) as [st'|] eqn:Hloop; [|done].
  intros [= <- <-]. split; [done|]. by apply unmarshalLoop_turns.
Qed.

Lemma unmarshalField_sameField m fld fld' :
  unmarshalField m fld = Returns fld' → sameField fld fld'.
Proof.
  unfold unmarshalField, sameField.
  destruct (decide (hl7 fld ≠ "")) as [Hr|Hr]; [|intros [= <-]; eauto 10].
  destruct (Find m (hl7 fld)) as [[val err]|]; [|done].
  unfold mbind, outcome_bind; cbn [fst].
  destruct (decide (val ≠ "")); [|intros [= <-]; eauto 10].
  destruct (CanSet fld) eqn:Hset; [|intros [= <-]; eauto 10].
  unfold SetString.
  destruct (fieldValue fld) as [s|] eqn:Hval; [|done].
  intros [= <-]; simpl. repeat split; try done.
  - intros [?|[?|?]]; done.
  - eauto.
Qed.

Lemma unmarshalField_again m fld fld' :
  unmarshalField m fld = Returns fld' → unmarshalField m fld' = Returns fld'.
Proof.
  unfold unmarshalField.
  destruct (decide (hl7 fld ≠ "")) as [Hr|Hr];
    [|intros [= <-]; by rewrite decide_False].
  destruct (Find m (hl7 fld)) as [[val err]|] eqn:Hfind; [|done].
  unfold mbind, outcome_bind; cbn [fst].
  destruct (decide (val ≠ "")) as [Hval|Hval].
  - destruct (CanSet fld) eqn:Hset.
    + unfold SetString. destruct (fieldValue fld) as [s|]; [|done].
      intros [= <-]. cbn [hl7 CanSet fieldValue Name].
      rewrite decide_True, Hfind by done.
      unfold mbind, outcome_bind; cbn [fst]. by rewrite decide_True, Hset.
    + intros [= <-]. rewrite decide_True, Hfind by done.
      unfold mbind, outcome_bind; cbn [fst]. by rewrite decide_True, Hset.
  - intros [= <-]. rewrite decide_True, Hfind by done.
    unfold mbind, outcome_bind; cbn [fst]. by rewrite decide_False.
Qed.

(** X8: a message as [NewMessage] returns it has an empty index until
    [Parse] is called: every lookup finds nothing, and [Unmarshal] called
    on it stops with a panic as soon as one field carries an address that
    parses.  [Unmarshal] does not read the message itself. *)
Theorem Unmarshal_before_Parse (data : list byte) m it fld l :
  NewMessage data = (Some m, None) →
  fld ∈ it →
  NewLocation (hl7 fld) = Some l →
  (∀ id, GetSegment m id = ([], None)) ∧ Unmarshal m it = Panics.
Proof.
  unfold NewMessage. destruct (length data <? 8); [done|].
  intros [= <-] Hin Hl.
  split; [intros id; unfold GetSegment; simpl; by rewrite lookup_total_empty|].
  unfold Unmarshal.
  rewrite (unmarshalLoop_panics _ it fld Hin); [done|].
  apply (unmarshalField_absent _ _ l Hl). simpl. by rewrite lookup_total_empty.
Qed.

Lemma Unmarshal_before_Parse_witness :
  Unmarshal (messageOf hl7text) (PIDMessage "" "" "" "") = Panics.
Proof.
  apply (Unmarshal_before_Parse hl7text (messageOf hl7text)
           (PIDMessage "" "" "" "")
           (mkField "Ehr" "MSH.2.0" true (StringValue ""))
           (Loc.mkLocation "MSH" 2 0 0)).
  - reflexivity.
  - by right; right; right; left.
  - by vm_compute.
Defined.

(** X9: when [Unmarshal] returns, the struct has the fields it had, in the
    same order, with their names, addresses and settability; a field with
    no address, a field that cannot be set and a field that is not a string
    are exactly as before, and a string field is still a string. *)
Theorem Unmarshal_keeps_fields m it st err :
  Unmarshal m it = Returns (st, err) →
  length st = length it ∧ Forall2 sameField it st.
Proof.
  intros [_ Hturns]%Unmarshal_turns. split.
  - symmetry. by eapply Forall2_length.
  - eapply Forall2_impl; [exact Hturns|]. apply unmarshalField_sameField.
Qed.

Lemma Unmarshal_keeps_fields_witness :
  Forall2 sameField
    [mkField "count" "MSH.2" true OtherValue; mkField "ehr" "MSH.2" false (StringValue "")]
    [mkField "count" "MSH.2" true OtherValue; mkField "ehr" "MSH.2" false (StringValue "")].
Proof.
  apply (Unmarshal_keeps_fields (Parse (messageOf minimal)).1 _ _ None).
  by vm_compute.
Defined.

(** X10: binding twice is binding once: when [Unmarshal] returns, calling
    it again with the same message on the struct it left returns the same
    struct. *)
Theorem Unmarshal_twice m it st err :
  Unmarshal m it = Returns (st, err) →
  Unmarshal m st = Returns (st, err).
Proof.
  intros [-> Hturns]%Unmarshal_turns. unfold Unmarshal.
  assert (unmarshalLoop m st = Returns st) as ->; [|done].
  induction Hturns as [|fld fld' it st Hfld _ IH]; simpl; [done|].
  by rewrite (unmarshalField_again _ _ _ Hfld), IH.
Qed.

Lemma Unmarshal_twice_witness :
  Unmarshal (Parse (messageOf hl7text)).1
    (PIDMessage "PID" "CURTIS" "SMITH" "CERNER")
  = Returns (PIDMessage "PID" "CURTIS" "SMITH" "CERNER", None).
Proof.
  apply (Unmarshal_twice _ (PIDMessage "" "" "" "")). by vm_compute.
Defined.

(** X12: the fields are bound one by one: [Unmarshal] returns for a struct
    exactly when it returns for each of its fields taken alone, and it then
    leaves in each field what it leaves in that field taken alone. *)
Theorem Unmarshal_field_by_field m it :
  ((∃ st, Unmarshal m it = Returns (st, None)) ↔
   ∀ fld, fld ∈ it → ∃ fld', Unmarshal m [fld] = Returns ([fld'], None)) ∧
  (∀ st err i fld,
      Unmarshal m it = Returns (st, err) → it !! i = Some fld →
      ∃ fld', st !! i = Some fld' ∧
              Unmarshal m [fld] = Returns ([fld'], None)).
Proof.
  assert (∀ fld fld', unmarshalField m fld = Returns fld' →
                      Unmarshal m [fld] = Returns ([fld'], None)) as Hone.
  { intros fld fld' Hfld. unfold Unmarshal; simpl. by rewrite Hfld. }
  assert (∀ fld fld', Unmarshal m [fld] = Returns ([fld'], None) →
                      unmarshalField m fld = Returns fld') as Hone'.
  { intros fld fld'. unfold Unmarshal; simpl.
    destruct (unmarshalField m fld); [|done]. by intros [= <-]. }
  split; [split|].
  - intros [st [_ Hturns]%Unmarshal_turns] fld [i Hi]%list_elem_of_lookup.
    destruct (Forall2_lookup_l _ _ _ _ _ Hturns Hi) as (fld' & _ & Hfld).
    eauto.
  - intros Hall.
    destruct (unmarshalLoop_returns m it) as (st & Hst & _).
    { apply Forall_forall. intros fld Hin.
      destruct (Hall fld Hin) as [fld' Hfld]. eauto. }
    exists st. unfold Unmarshal. by rewrite Hst.
  - intros st err i fld [_ Hturns]%Unmarshal_turns Hi.
    destruct (Forall2_lookup_l _ _ _ _ _ Hturns Hi) as (fld' & Hi' & Hfld).
    eauto.
Qed.

End Binding.


(** * How much the calls read *)

Section Accounting.

Implicit Types (m : Message) (segs : list Segment).

Lemma rejoin_app segs segs' : rejoin (segs ++ segs') = rejoin segs ++ rejoin segs'.
Proof. unfold rejoin. apply flat_map_app. Qed.

Lemma length_rejoin_lines m (lines : list (list byte * byte * list byte)) :
  length (rejoin (segmentOf m <$> ((λ x, x.1.1) <$> lines)))
  ≤ length (joined lines).
Proof.
  induction lines as [|[[line b] ws] lines IH]; [done|].
  change (rejoin _) with
    ((line ++ [CR]) ++ rejoin (segmentOf m <$> ((λ x, x.1.1) <$> lines))).
  change (joined _) with ((line ++ b :: ws) ++ joined lines).
  rewrite !length_app. simpl. lia.
Qed.

(** X13: the segments of a message never hold more bytes than the reader
    gave: their bytes, counting one terminator for each, are at most one
    more than the bytes of the reader, and so a message has no more
    segments than its reader has bytes. *)
Theorem readAll_bytes_bound m :
  length (rejoin (readAll m)) ≤ S (length (reader m)) ∧
  length (readAll m) ≤ length (reader m).
Proof.
  destruct (reader_decomposes m)
    as (ws & lines & last & _ & Hlines & Hlast & -> & ->).
  rewrite fmap_app, rejoin_app, !length_app, !length_fmap.
  pose proof (length_rejoin_lines m lines) as Hle.
  assert (length lines ≤ length (joined lines)) as Hcount.
  { clear. induction lines as [|[[line b] ws] lines IH]; [done|].
    change (joined _) with ((line ++ b :: ws) ++ joined lines).
    rewrite !length_app. simpl. lia. }
  destruct Hlast as [->|[(b & last' & -> & _) _]]; simpl in *; [lia|].
  rewrite !length_app. simpl. lia.
Qed.

End Accounting.
